(** * autocleanup.h: scope-bound release of pointers and handles

    A shallow embedding of the macros and inline functions of
    [autocleanup.h] and of the scope-exit behaviour of
    [__attribute__((cleanup))] that they rely on.

    - C objects live in a store [gmap Z Z] from addresses to scalar values;
      the null pointer is address [0]; reading or writing through a null or
      unallocated pointer is undefined behaviour, rendered as [None].
    - Pointers ([void *]) and handles (any scalar type compared with [!=])
      are both scalars, hence [Z].
    - The release function [_func] of a binding is external code.  A call is
      recorded in a trace together with every write the header's code makes,
      in program order; the release function receives its argument by value
      and does not write to the binding. *)

From stdpp Require Import base strings gmap list.
From Stdlib Require Import ZArith.

Local Open Scope Z_scope.

Module AutoCleanup.

(** ** The abstract machine *)

(** The null pointer constant. *)
Definition NULL : Z := 0.

Inductive event :=
  | EvStore (p : Z) (v : Z)          (* [*p = v;] *)
  | EvCall (f : string) (arg : Z).   (* [(f) (arg);] *)

Record state := State { mem : gmap Z Z; trace : list event }.

(** Computations: a state transformer that may hit undefined behaviour. *)
Definition M (A : Type) : Type := state → option (A * state).

Definition ret {A} (x : A) : M A := λ s, Some (x, s).

Definition bind {A B} (c : M A) (k : A → M B) : M B :=
  λ s, match c s with
       | Some (x, s') => k x s'
       | None => None
       end.

Declare Scope cmd_scope.
Delimit Scope cmd_scope with cmd.
Bind Scope cmd_scope with M.
Notation "'let*' x := c 'in' k" := (bind c (λ x, k))
  (at level 10, x name, c at level 100, k at level 200) : cmd_scope.
Notation "c ;; k" := (bind c (λ _, k))
  (at level 100, k at level 200, right associativity) : cmd_scope.
Local Open Scope cmd_scope.

(** [*p] as an rvalue. *)
Definition load (p : Z) : M Z :=
  λ s, if decide (p = NULL) then None
       else match mem s !! p with
            | Some v => Some (v, s)
            | None => None
            end.

(** [*p = v;] *)
Definition store (p v : Z) : M unit :=
  λ s, if decide (p = NULL) then None
       else match mem s !! p with
            | Some _ => Some (tt, State (<[p:=v]> (mem s)) (trace s ++ [EvStore p v]))
            | None => None
            end.

(** [(f) (arg);] for an external release function [f]. *)
Definition call (f : string) (arg : Z) : M unit :=
  λ s, Some (tt, State (mem s) (trace s ++ [EvCall f arg])).

(** The release-function invocations of a trace, in order. *)
Definition calls (t : list event) : list (string * Z) :=
  omap (λ e, match e with
             | EvCall f arg => Some (f, arg)
             | EvStore _ _ => None
             end) t.

(** ** autocleanup.h *)

(** [#define AUTOCLEANUP_FREE_FUNC free] *)
Definition AUTOCLEANUP_FREE_FUNC : string := "free".

(** The function [_ptr_auto_cleanup_T] that [PTR_AUTO_DEFINE (T, _func)]
    defines:
    [{ if (_ptr) (_func) ( *_ptr); }] *)
Definition _ptr_auto_cleanup (_func : string) (_ptr : Z) : M unit :=
  if decide (_ptr ≠ NULL) then
    let* v := load _ptr in
    call _func v
  else ret tt.

(** [static inline void _ptr_auto_generic_free (void **ptr)
     { if (ptr) AUTOCLEANUP_FREE_FUNC ( *ptr); }]
    The macro [ptr_autofree] names it as a cleanup function, through
    [_PTR_AUTO_CLEANUP], which the header does not define. *)
Definition _ptr_auto_generic_free (ptr : Z) : M unit :=
  if decide (ptr ≠ NULL) then
    let* v := load ptr in
    call AUTOCLEANUP_FREE_FUNC v
  else ret tt.

(** [static inline void* ptr_steal (void *pp)]; the macro of the same name
    only casts the result back to the type of [*pp]. *)
Definition ptr_steal (pp : Z) : M Z :=
  let ptr := pp in
  let* ref := load ptr in
  store ptr NULL ;;
  ret ref.

(** The function [_handle_auto_cleanup_T] that
    [HANDLE_AUTO_DEFINE (T, _func, _nil_value)] defines. *)
Definition _handle_auto_cleanup (_func : string) (_nil_value : Z) (_ptr : Z) : M unit :=
  if decide (_ptr ≠ NULL) then
    let* handle := load _ptr in
    if decide (handle ≠ _nil_value) then
      store _ptr _nil_value ;;
      call _func handle
    else ret tt
  else ret tt.

(** [#define handle_clear(_handle_ptr, _func, _nil_value)] *)
Definition handle_clear (_handle_ptr : Z) (_func : string) (_nil_value : Z) : M unit :=
  let handle_ptr := _handle_ptr in
  let* handle := load handle_ptr in
  let vnil := _nil_value in
  if decide (handle ≠ vnil) then
    store handle_ptr vnil ;;
    call _func handle
  else ret tt.

(** [#define handle_steal(_handle_ptr, _nil_value)] *)
Definition handle_steal (_handle_ptr : Z) (_nil_value : Z) : M Z :=
  let handle_ptr := _handle_ptr in
  let* handle := load handle_ptr in
  store handle_ptr _nil_value ;;
  ret handle.

(** [#define ptr_clear(_pp, _func)]: [handle_clear] with the null pointer
    as nil value. *)
Definition ptr_clear (_pp : Z) (_func : string) : M unit :=
  handle_clear _pp _func NULL.

(** ** Scopes and [__attribute__((cleanup))]

    [ptr_auto(T) x] and [handle_auto(T) h] declare a block-scoped variable
    carrying [__attribute__((cleanup(fn)))]: when the variable goes out of
    scope the compiler calls [fn (&x)].  Variables of one block go out of
    scope last-declared first, whichever way control leaves the block. *)

(** A declared variable: its kind, the macro arguments that fix its cleanup
    function, and its address. *)
Inductive auto_var :=
  | ptr_auto (_func : string) (var : Z)
  | handle_auto (_func : string) (_nil_value : Z) (var : Z).

Definition var_addr (d : auto_var) : Z :=
  match d with
  | ptr_auto _ a => a
  | handle_auto _ _ a => a
  end.

(** The function named by the variable's cleanup attribute, applied to the
    variable's address. *)
Definition cleanup_of (d : auto_var) : M unit :=
  match d with
  | ptr_auto f a => _ptr_auto_cleanup f a
  | handle_auto f n a => _handle_auto_cleanup f n a
  end.

(** How control leaves a block: off its end, by a jump out of it ([return],
    [break], [continue], [goto]), or by stack unwinding while an error
    propagates (with [-fexceptions]). *)
Inductive exit_kind := FallThrough | Jump | Unwinding.

(** What a block does with its bindings. *)
Inductive stmt :=
  | SDecl (d : auto_var) (init : Z)        (* [ptr_auto(T) x = init;] *)
  | SAssign (a v : Z)                      (* [x = v;] *)
  | SPtrSteal (a : Z)                      (* [ptr_steal (&x);] *)
  | SHandleSteal (a n : Z)                 (* [handle_steal (&h, n);] *)
  | SHandleClear (a : Z) (f : string) (n : Z)  (* [handle_clear (&h, f, n);] *)
  | SPtrClear (a : Z) (f : string)         (* [ptr_clear (&x, f);] *)
  | SLeave (k : exit_kind).                (* control leaves the block here *)

(** A variable comes to life at a fresh non-null address. *)
Definition alloc (a v : Z) : M unit :=
  λ s, if decide (a = NULL) then None
       else match mem s !! a with
            | Some _ => None
            | None => Some (tt, State (<[a:=v]> (mem s)) (trace s))
            end.

Definition dealloc (a : Z) : M unit :=
  λ s, Some (tt, State (delete a (mem s)) (trace s)).

(** Run a block up to the point where control leaves it; [live] holds the
    variables in scope, the most recently declared first. *)
Fixpoint run_body (b : list stmt) (live : list auto_var) : M (exit_kind * list auto_var) :=
  match b with
  | [] => ret (FallThrough, live)
  | SLeave k :: _ => ret (k, live)
  | SDecl d init :: b' => alloc (var_addr d) init ;; run_body b' (d :: live)
  | SAssign a v :: b' => store a v ;; run_body b' live
  | SPtrSteal a :: b' => ptr_steal a ;; run_body b' live
  | SHandleSteal a n :: b' => handle_steal a n ;; run_body b' live
  | SHandleClear a f n :: b' => handle_clear a f n ;; run_body b' live
  | SPtrClear a f :: b' => ptr_clear a f ;; run_body b' live
  end.

(** The variables in scope go out of scope one by one. *)
Fixpoint unwind (live : list auto_var) : M unit :=
  match live with
  | [] => ret tt
  | d :: live' => cleanup_of d ;; dealloc (var_addr d) ;; unwind live'
  end.

(** A whole block: its exit completes, with the way it was left, only after
    every variable has gone out of scope. *)
Definition run_scope (b : list stmt) : M exit_kind :=
  let* r := run_body b [] in
  unwind r.2 ;;
  ret r.1.

(** The variables a block has declared when control leaves it, in
    declaration order. *)
Fixpoint declared (b : list stmt) : list auto_var :=
  match b with
  | [] => []
  | SLeave _ :: _ => []
  | SDecl d _ :: b' => d :: declared b'
  | _ :: b' => declared b'
  end.

(** A binding owns a resource when it holds anything but its empty value:
    the null pointer for a pointer, the declared nil value for a handle. *)
Definition empty_value (d : auto_var) : Z :=
  match d with
  | ptr_auto _ _ => NULL
  | handle_auto _ n _ => n
  end.

Definition release_func (d : auto_var) : string :=
  match d with
  | ptr_auto f _ => f
  | handle_auto f _ _ => f
  end.

(** The release owed to a binding that still owns a resource in store [m]. *)
Definition owned_release (m : gmap Z Z) (d : auto_var) : option (string * Z) :=
  match m !! var_addr d with
  | Some v => if decide (v = empty_value d) then None else Some (release_func d, v)
  | None => None
  end.

(** The release-function invocations the cleanup function of [d] makes
    when run on store [m]. *)
Definition exit_calls (m : gmap Z Z) (d : auto_var) : list (string * Z) :=
  match d, m !! var_addr d with
  | ptr_auto f _, Some v => [(f, v)]
  | handle_auto f n _, Some v => if decide (v = n) then [] else [(f, v)]
  | _, None => []
  end.

(** A command that neither creates nor destroys objects. *)
Definition keeps_dom {A} (c : M A) : Prop :=
  ∀ s x s', c s = Some (x, s') → dom (mem s') = dom (mem s).

(** The variables in scope are distinct live objects. *)
Definition scope_inv (live : list auto_var) (m : gmap Z Z) : Prop :=
  NoDup (var_addr <$> live)
  ∧ ∀ d, d ∈ live → var_addr d ≠ NULL ∧ var_addr d ∈ dom m.

(** The outcome [r] of an operation on the binding at [p], started with
    trace [t]: it returns, and of the events it adds every write is a write
    of [n] to [p], every call is a call of [f], and there is at most one
    call.  Nothing is said of what the called function does. *)
Definition own_effects {A} (p n : Z) (f : string) (t : list event)
    (r : option (A * state)) : Prop :=
  ∃ x s' evs,
    r = Some (x, s')
    ∧ trace s' = t ++ evs
    ∧ (∀ q w, EvStore q w ∈ evs → q = p ∧ w = n)
    ∧ (∀ g w, EvCall g w ∈ evs → g = f)
    ∧ (length (calls evs) ≤ 1)%nat.

(** A pointer binding that holds the null pointer in store [m]. *)
Definition null_pointer_binding (m : gmap Z Z) (d : auto_var) : Prop :=
  match d with
  | ptr_auto _ a => m !! a = Some NULL
  | handle_auto _ _ _ => False
  end.

(** * Properties *)

(** ** Single steps of the machine *)

Lemma load_ok p v m t :
  p ≠ NULL → m !! p = Some v → load p (State m t) = Some (v, State m t).
Proof.
  intros Hp Hm. unfold load. destruct (decide (p = NULL)) as [E|_]; [done|].
  cbn [mem]. by rewrite Hm.
Qed.

Lemma store_ok p v w m t :
  p ≠ NULL → m !! p = Some w →
  store p v (State m t) = Some (tt, State (<[p:=v]> m) (t ++ [EvStore p v])).
Proof.
  intros Hp Hm. unfold store. destruct (decide (p = NULL)) as [E|_]; [done|].
  cbn [mem trace]. by rewrite Hm.
Qed.

Lemma calls_app t1 t2 : calls (t1 ++ t2) = calls t1 ++ calls t2.
Proof. unfold calls. apply omap_app. Qed.

(** Unfold one sequencing step whose first command is a load or a store on
    an allocated cell. *)
Ltac step :=
  unfold bind at 1;
  first [ erewrite load_ok by eassumption
        | erewrite store_ok by (first [eassumption | apply lookup_insert_eq]) ].

(** ** What each operation of the header does on an allocated binding *)

Lemma ptr_cleanup_run f p v m t :
  p ≠ NULL → m !! p = Some v →
  _ptr_auto_cleanup f p (State m t) = Some (tt, State m (t ++ [EvCall f v])).
Proof.
  intros Hp Hm. unfold _ptr_auto_cleanup.
  destruct (decide (p ≠ NULL)); [|done]. by step.
Qed.

Lemma generic_free_run p v m t :
  p ≠ NULL → m !! p = Some v →
  _ptr_auto_generic_free p (State m t)
  = Some (tt, State m (t ++ [EvCall AUTOCLEANUP_FREE_FUNC v])).
Proof.
  intros Hp Hm. unfold _ptr_auto_generic_free.
  destruct (decide (p ≠ NULL)); [|done]. by step.
Qed.

Lemma ptr_steal_run p v m t :
  p ≠ NULL → m !! p = Some v →
  ptr_steal p (State m t) = Some (v, State (<[p:=NULL]> m) (t ++ [EvStore p NULL])).
Proof. intros Hp Hm. unfold ptr_steal. cbv zeta. step. by step. Qed.

Lemma handle_steal_run p n v m t :
  p ≠ NULL → m !! p = Some v →
  handle_steal p n (State m t) = Some (v, State (<[p:=n]> m) (t ++ [EvStore p n])).
Proof. intros Hp Hm. unfold handle_steal. cbv zeta. step. by step. Qed.

Lemma handle_cleanup_owned f n p v m t :
  p ≠ NULL → m !! p = Some v → v ≠ n →
  _handle_auto_cleanup f n p (State m t)
  = Some (tt, State (<[p:=n]> m) (t ++ [EvStore p n; EvCall f v])).
Proof.
  intros Hp Hm Hv. unfold _handle_auto_cleanup.
  destruct (decide (p ≠ NULL)); [|done]. step.
  destruct (decide (v ≠ n)); [|done]. step.
  unfold call; cbn [mem trace]. by rewrite <- app_assoc.
Qed.

Lemma handle_cleanup_empty f n p m t :
  p ≠ NULL → m !! p = Some n →
  _handle_auto_cleanup f n p (State m t) = Some (tt, State m t).
Proof.
  intros Hp Hm. unfold _handle_auto_cleanup.
  destruct (decide (p ≠ NULL)); [|done]. step.
  by destruct (decide (n ≠ n)).
Qed.

Lemma handle_clear_owned f n p v m t :
  p ≠ NULL → m !! p = Some v → v ≠ n →
  handle_clear p f n (State m t)
  = Some (tt, State (<[p:=n]> m) (t ++ [EvStore p n; EvCall f v])).
Proof.
  intros Hp Hm Hv. unfold handle_clear. cbv zeta. step.
  destruct (decide (v ≠ n)); [|done]. step.
  unfold call; cbn [mem trace]. by rewrite <- app_assoc.
Qed.

Lemma handle_clear_empty f n p m t :
  p ≠ NULL → m !! p = Some n →
  handle_clear p f n (State m t) = Some (tt, State m t).
Proof.
  intros Hp Hm. unfold handle_clear. cbv zeta. step.
  by destruct (decide (n ≠ n)).
Qed.

(** ** Bindings stay allocated while their block runs *)

Lemma keeps_dom_ret {A} (x : A) : keeps_dom (ret x).
Proof. intros s y s' [= _ <-]. done. Qed.

Lemma keeps_dom_bind {A B} (c : M A) (k : A → M B) :
  keeps_dom c → (∀ x, keeps_dom (k x)) → keeps_dom (bind c k).
Proof.
  intros Hc Hk s y s'. unfold bind.
  destruct (c s) as [[x s1]|] eqn:E; [|done].
  intros Hrun. rewrite (Hk _ _ _ _ Hrun). eauto.
Qed.

Lemma keeps_dom_load p : keeps_dom (load p).
Proof.
  intros s y s'. unfold load. destruct (decide (p = NULL)); [done|].
  destruct (mem s !! p); [|done]. by intros [= _ <-].
Qed.

Lemma keeps_dom_store p v : keeps_dom (store p v).
Proof.
  intros s y s'. unfold store. destruct (decide (p = NULL)); [done|].
  destruct (mem s !! p) eqn:E; [|done]. intros [= _ <-]. cbn [mem].
  apply dom_insert_lookup_L. eauto.
Qed.

Lemma keeps_dom_call f v : keeps_dom (call f v).
Proof. intros s y s'. unfold call. by intros [= _ <-]. Qed.

Create HintDb keeps_dom.
#[local] Hint Resolve keeps_dom_ret keeps_dom_load keeps_dom_store
  keeps_dom_call : keeps_dom.

Ltac keeps_dom :=
  repeat first
    [ apply keeps_dom_bind; [|intros ?]
    | match goal with |- keeps_dom (if ?c then _ else _) => destruct c end
    | solve [auto with keeps_dom] ].

Lemma keeps_dom_ptr_steal p : keeps_dom (ptr_steal p).
Proof. unfold ptr_steal. cbv zeta. keeps_dom. Qed.

Lemma keeps_dom_handle_steal p n : keeps_dom (handle_steal p n).
Proof. unfold handle_steal. cbv zeta. keeps_dom. Qed.

Lemma keeps_dom_handle_clear p f n : keeps_dom (handle_clear p f n).
Proof. unfold handle_clear. cbv zeta. keeps_dom. Qed.

Lemma keeps_dom_ptr_clear p f : keeps_dom (ptr_clear p f).
Proof. apply keeps_dom_handle_clear. Qed.

#[local] Hint Resolve keeps_dom_ptr_steal keeps_dom_handle_steal
  keeps_dom_handle_clear keeps_dom_ptr_clear : keeps_dom.

Lemma scope_inv_nil m : scope_inv [] m.
Proof. split; [constructor | intros d Hd; by apply elem_of_nil in Hd]. Qed.

Lemma scope_inv_dom live m m' :
  dom m' = dom m → scope_inv live m → scope_inv live m'.
Proof. intros E [Hnd Hl]. split; [done|]. intros d Hd. rewrite E. eauto. Qed.

Lemma scope_inv_alloc d v live s s' :
  scope_inv live (mem s) → alloc (var_addr d) v s = Some (tt, s') →
  scope_inv (d :: live) (mem s').
Proof.
  intros [Hnd Hl]. unfold alloc.
  destruct (decide (var_addr d = NULL)) as [|Hn]; [done|].
  destruct (mem s !! var_addr d) eqn:E; [done|]. intros [= <-]. cbn [mem].
  split.
  - rewrite fmap_cons. constructor; [|done].
    intros (d' & Ea & Hd')%list_elem_of_fmap.
    pose proof (Hl d' Hd') as [_ Hdom]. rewrite <- Ea in Hdom.
    apply elem_of_dom in Hdom. rewrite E in Hdom. by destruct Hdom.
  - intros d' [->|Hd']%elem_of_cons; rewrite dom_insert_L.
    + split; [done|]. apply elem_of_union_l. by apply elem_of_singleton.
    + pose proof (Hl d' Hd') as [? ?]. split; [done|]. by apply elem_of_union_r.
Qed.

Lemma run_body_inv b : ∀ live s k live' s1,
  scope_inv live (mem s) →
  run_body b live s = Some ((k, live'), s1) →
  scope_inv live' (mem s1) ∧ live' = rev (declared b) ++ live.
Proof.
  induction b as [|c b IH]; intros live s k live' s1 Hinv; cbn [run_body declared].
  { by intros [= _ <- <-]. }
  assert (Hkeep : ∀ cmd : M unit,
            keeps_dom cmd →
            (cmd ;; run_body b live) s = Some ((k, live'), s1) →
            scope_inv live' (mem s1) ∧ live' = rev (declared b) ++ live).
  { intros cmd Hcmd. unfold bind.
    destruct (cmd s) as [[[] s0]|] eqn:E; [|done].
    apply IH. eapply scope_inv_dom; [|done]. eauto. }
  destruct c.
  - unfold bind. destruct (alloc (var_addr d) init s) as [[[] s0]|] eqn:E; [|done].
    intros Hrun. eapply IH in Hrun; [|by eapply scope_inv_alloc].
    destruct Hrun as [? ->]. split; [done|].
    cbn [rev]. by rewrite <- app_assoc.
  - apply Hkeep. auto with keeps_dom.
  - intros Hrun.
    apply (Hkeep (ptr_steal a ;; ret tt)); [keeps_dom|].
    revert Hrun. unfold bind. by destruct (ptr_steal a s) as [[? ?]|].
  - intros Hrun.
    apply (Hkeep (handle_steal a n ;; ret tt)); [keeps_dom|].
    revert Hrun. unfold bind. by destruct (handle_steal a n s) as [[? ?]|].
  - apply Hkeep. auto with keeps_dom.
  - apply Hkeep. auto with keeps_dom.
  - by intros [= <- <- <-].
Qed.

(** ** Leaving a scope *)

Lemma exit_calls_delete a m d :
  var_addr d ≠ a → exit_calls (delete a m) d = exit_calls m d.
Proof.
  intros Hne. unfold exit_calls.
  destruct d; cbn [var_addr] in *; by rewrite lookup_delete_ne.
Qed.

Lemma owned_release_exit_calls m d r :
  owned_release m d = Some r → exit_calls m d = [r].
Proof.
  unfold owned_release, exit_calls.
  destruct d as [f a|f n a]; cbn [var_addr empty_value release_func];
    destruct (m !! a) as [v|]; try done.
  - destruct (decide (v = NULL)); [done|]. by intros [= <-].
  - destruct (decide (v = n)); [done|]. by intros [= <-].
Qed.

(** The cleanup function of a live variable returns, makes exactly the
    calls [exit_calls] lists, and touches no other object. *)
Lemma cleanup_of_run d m t :
  var_addr d ≠ NULL → var_addr d ∈ dom m →
  ∃ m1 evs, cleanup_of d (State m t) = Some (tt, State m1 (t ++ evs))
            ∧ calls evs = exit_calls m d
            ∧ delete (var_addr d) m1 = delete (var_addr d) m.
Proof.
  intros Hn [v Hv]%elem_of_dom. unfold exit_calls.
  destruct d as [f a|f n a]; cbn [var_addr cleanup_of] in *; rewrite Hv.
  - exists m, [EvCall f v]. by rewrite (ptr_cleanup_run f a v).
  - destruct (decide (v = n)) as [->|Hne].
    + exists m, []. rewrite (handle_cleanup_empty f n a) by done.
      by rewrite app_nil_r.
    + exists (<[a:=n]> m), [EvStore a n; EvCall f v].
      rewrite (handle_cleanup_owned f n a v) by done.
      by rewrite delete_insert_eq.
Qed.

Lemma flat_map_ext_elem {A B} (f g : A → list B) l :
  (∀ x, x ∈ l → f x = g x) → flat_map f l = flat_map g l.
Proof.
  induction l as [|x l IH]; intros H; cbn [flat_map]; [done|].
  rewrite (H x) by left. rewrite IH; [done|]. intros y Hy. apply H. by right.
Qed.

Lemma unwind_run live : ∀ m t,
  scope_inv live m →
  ∃ m' evs, unwind live (State m t) = Some (tt, State m' (t ++ evs))
            ∧ calls evs = flat_map (exit_calls m) live.
Proof.
  induction live as [|d live IH]; intros m t [Hnd Hl]; cbn [unwind flat_map].
  { exists m, []. by rewrite app_nil_r. }
  rewrite fmap_cons in Hnd. apply NoDup_cons in Hnd as [Hfresh Hnd].
  destruct (Hl d) as [Hn Hdom]; [by left|].
  destruct (cleanup_of_run d m t Hn Hdom) as (m1 & evs1 & Hrun & Hcalls & Hdel).
  destruct (IH (delete (var_addr d) m) (t ++ evs1)) as (m' & evs & Hrest & Hcalls').
  { split; [done|]. intros d' Hd'.
    destruct (Hl d') as [Hn' Hdom']; [by right|]. split; [done|].
    rewrite dom_delete_L. apply elem_of_difference. split; [done|].
    intros E%elem_of_singleton. apply Hfresh, list_elem_of_fmap.
    exists d'. by split. }
  exists m', (evs1 ++ evs). split.
  - unfold bind at 1. rewrite Hrun. unfold bind at 1, dealloc at 1.
    cbn [mem trace]. rewrite Hdel, Hrest. by rewrite app_assoc.
  - rewrite calls_app, Hcalls, Hcalls'. f_equal.
    apply flat_map_ext_elem. intros d' Hd'.
    apply exit_calls_delete. intros E. apply Hfresh, list_elem_of_fmap.
    exists d'. by split.
Qed.

Lemma owned_releases_sublist m live :
  omap (owned_release m) live `sublist_of` flat_map (exit_calls m) live.
Proof.
  induction live as [|d live IH]; cbn [omap list_omap flat_map]; [constructor|].
  destruct (owned_release m d) as [r|] eqn:E.
  - rewrite (owned_release_exit_calls _ _ _ E). by constructor.
  - by apply sublist_inserts_l.
Qed.

(** * The claims *)

(** ** Pointer bindings that hold the null pointer *)

(** C1: the claim says that no cleanup function calls the release function
    on a null value.  The code tests the address of the binding, not the
    value it holds: on a binding at address [100] that holds the null
    pointer, the function defined by [PTR_AUTO_DEFINE] calls the release
    function with the null pointer, and so does [_ptr_auto_generic_free]. *)
Theorem ptr_cleanup_on_null_calls_release :
  _ptr_auto_cleanup "release" 100 (State {[100 := NULL]} [])
  = Some (tt, State {[100 := NULL]} [EvCall "release" NULL])
  ∧ _ptr_auto_generic_free 100 (State {[100 := NULL]} [])
    = Some (tt, State {[100 := NULL]} [EvCall AUTOCLEANUP_FREE_FUNC NULL]).
Proof.
  split.
  - by apply (ptr_cleanup_run "release" 100 NULL {[100 := NULL]} []).
  - by apply (generic_free_run 100 NULL {[100 := NULL]} []).
Qed.

(** C2: the claim says that after [ptr_steal] the scope exit never invokes
    the release function.  On the code, a block that binds the pointer [7],
    steals it and is left in any way [k] ends with one call of the release
    function, on the null pointer that [ptr_steal] stored. *)
Theorem ptr_steal_then_exit_calls_release (k : exit_kind) :
  run_scope [SDecl (ptr_auto "release" 100) 7; SPtrSteal 100; SLeave k]
            (State ∅ [])
  = Some (k, State ∅ [EvStore 100 NULL; EvCall "release" NULL]).
Proof. by destruct k; vm_compute. Qed.

(** C3: the claim says that the scope-exit release is a no-op when the
    binding is empty.  On the code, a block whose only binding is a pointer
    holding the null pointer, left in any way [k], calls the release
    function once, with the null pointer. *)
Theorem exit_with_empty_pointer_calls_release (k : exit_kind) :
  run_scope [SDecl (ptr_auto "release" 100) NULL; SLeave k] (State ∅ [])
  = Some (k, State ∅ [EvCall "release" NULL]).
Proof. by destruct k; vm_compute. Qed.

(** ** Handle bindings at scope exit *)

Lemma handle_cleanup_run f n p v m t :
  p ≠ NULL → m !! p = Some v →
  ∃ evs,
    _handle_auto_cleanup f n p (State m t)
    = Some (tt, State (<[p:=n]> m) (t ++ evs))
    ∧ calls evs = (if decide (v = n) then [] else [(f, v)])
    ∧ ((f, v) ∈ calls evs ↔ v ≠ n).
Proof.
  intros Hp Hm. destruct (decide (v = n)) as [->|Hv].
  - exists []. rewrite (handle_cleanup_empty f n p) by done.
    rewrite app_nil_r, insert_id by done. split_and!; [done..|].
    cbn. split; [by intros ?%elem_of_nil | done].
  - exists [EvStore p n; EvCall f v].
    rewrite (handle_cleanup_owned f n p v) by done. split_and!; [done..|].
    cbn. split; [done | intros _; by left].
Qed.

(** C4: run on a handle binding that holds [v], the cleanup function
    defined by [HANDLE_AUTO_DEFINE] with nil value [n] returns, calls the
    release function (once, with [v]) if and only if [v] differs from [n],
    and leaves the binding equal to [n]. *)
Theorem handle_cleanup_releases_iff_owned f n p v m t :
  p ≠ NULL → m !! p = Some v →
  ∃ evs,
    _handle_auto_cleanup f n p (State m t)
    = Some (tt, State (<[p:=n]> m) (t ++ evs))
    ∧ calls evs = (if decide (v = n) then [] else [(f, v)])
    ∧ ((f, v) ∈ calls evs ↔ v ≠ n).
Proof. apply handle_cleanup_run. Qed.

Lemma handle_cleanup_releases_iff_owned_witness :
  ∃ evs,
    _handle_auto_cleanup "close" (-1) 100 (State {[100 := 5]} [])
    = Some (tt, State (<[100:=-1]> {[100 := 5]}) ([] ++ evs))
    ∧ calls evs = (if decide (5 = -1) then [] else [("close", 5)])
    ∧ (("close", 5) ∈ calls evs ↔ 5 ≠ -1).
Proof.
  apply (handle_cleanup_releases_iff_owned "close" (-1) 100 5 {[100 := 5]} []).
  - unfold NULL. lia.
  - reflexivity.
Defined.

(** C9: the cleanup function defined by [HANDLE_AUTO_DEFINE] stores the
    nil value in the binding before it calls the release function; after
    any invocation the binding reads the nil value, and a second invocation
    on the same binding calls nothing and changes nothing. *)
Theorem handle_cleanup_is_idempotent f n p v m t :
  p ≠ NULL → m !! p = Some v →
  ∃ s1,
    _handle_auto_cleanup f n p (State m t) = Some (tt, s1)
    ∧ mem s1 !! p = Some n
    ∧ (v ≠ n → trace s1 = t ++ [EvStore p n; EvCall f v])
    ∧ (v = n → trace s1 = t)
    ∧ _handle_auto_cleanup f n p s1 = Some (tt, s1)
    ∧ (_handle_auto_cleanup f n p ;; _handle_auto_cleanup f n p) (State m t)
      = Some (tt, s1).
Proof.
  intros Hp Hm. destruct (decide (v = n)) as [->|Hv].
  - exists (State m t).
    pose proof (handle_cleanup_empty f n p m t Hp Hm) as Hrun.
    unfold bind. rewrite !Hrun. by split_and!.
  - exists (State (<[p:=n]> m) (t ++ [EvStore p n; EvCall f v])).
    pose proof (handle_cleanup_owned f n p v m t Hp Hm Hv) as Hrun.
    assert (Hagain : _handle_auto_cleanup f n p
                       (State (<[p:=n]> m) (t ++ [EvStore p n; EvCall f v]))
                     = Some (tt, State (<[p:=n]> m)
                                       (t ++ [EvStore p n; EvCall f v]))).
    { apply handle_cleanup_empty; [done | apply lookup_insert_eq]. }
    unfold bind. rewrite !Hrun. cbn [mem trace].
    split_and!; [done | apply lookup_insert_eq | done..].
Qed.

Lemma handle_cleanup_is_idempotent_witness :
  ∃ s1,
    _handle_auto_cleanup "close" (-1) 100 (State {[100 := 5]} []) = Some (tt, s1)
    ∧ mem s1 !! 100 = Some (-1)
    ∧ (5 ≠ -1 → trace s1 = [] ++ [EvStore 100 (-1); EvCall "close" 5])
    ∧ (5 = -1 → trace s1 = [])
    ∧ _handle_auto_cleanup "close" (-1) 100 s1 = Some (tt, s1)
    ∧ (_handle_auto_cleanup "close" (-1) 100 ;; _handle_auto_cleanup "close" (-1) 100)
        (State {[100 := 5]} [])
      = Some (tt, s1).
Proof.
  apply (handle_cleanup_is_idempotent "close" (-1) 100 5 {[100 := 5]} []).
  - unfold NULL. lia.
  - reflexivity.
Defined.

(** A handle that is stolen with its declared nil value is not released
    when the block is left. *)
Example handle_stolen_then_exit (k : exit_kind) :
  run_scope [SDecl (handle_auto "close" (-1) 104) 5;
             SHandleSteal 104 (-1);
             SLeave k] (State ∅ [])
  = Some (k, State ∅ [EvStore 104 (-1)]).
Proof. by destruct k; vm_compute. Qed.

(** ** Steal *)

(** C5: on any allocated binding, empty or not, [ptr_steal] and
    [handle_steal] return the value the binding held and leave in it the
    null pointer, respectively the nil value supplied; no release function
    is called.  In particular an empty binding yields the empty value. *)
Theorem steal_returns_held_value_and_empties p n v m t :
  p ≠ NULL → m !! p = Some v →
  ptr_steal p (State m t)
  = Some (v, State (<[p:=NULL]> m) (t ++ [EvStore p NULL]))
  ∧ handle_steal p n (State m t)
    = Some (v, State (<[p:=n]> m) (t ++ [EvStore p n])).
Proof.
  intros Hp Hm. split.
  - by apply ptr_steal_run.
  - by apply handle_steal_run.
Qed.

Lemma steal_returns_held_value_and_empties_witness :
  ptr_steal 100 (State {[100 := NULL]} [])
  = Some (NULL, State (<[100:=NULL]> {[100 := NULL]}) ([] ++ [EvStore 100 NULL]))
  ∧ handle_steal 100 0 (State {[100 := NULL]} [])
    = Some (NULL, State (<[100:=0]> {[100 := NULL]}) ([] ++ [EvStore 100 0])).
Proof.
  apply (steal_returns_held_value_and_empties 100 0 NULL {[100 := NULL]} []).
  - unfold NULL. lia.
  - reflexivity.
Defined.

(** C10: [handle_steal] compares nothing.  Whatever the binding holds
    (its nil value included) and whatever value [n] the caller supplies,
    it returns the held value and stores [n].  The cleanup function of a
    binding declared with nil value [d] that runs afterwards calls the
    release function, with [n], if and only if [n] differs from [d]. *)
Theorem handle_steal_is_unconditional f d p n v m t :
  p ≠ NULL → m !! p = Some v →
  handle_steal p n (State m t)
  = Some (v, State (<[p:=n]> m) (t ++ [EvStore p n]))
  ∧ ∃ m' evs,
      (handle_steal p n ;; _handle_auto_cleanup f d p) (State m t)
      = Some (tt, State m' (t ++ [EvStore p n] ++ evs))
      ∧ calls evs = (if decide (n = d) then [] else [(f, n)])
      ∧ ((f, n) ∈ calls evs ↔ n ≠ d).
Proof.
  intros Hp Hm. split; [by apply handle_steal_run|].
  unfold bind. rewrite (handle_steal_run p n v) by done.
  destruct (handle_cleanup_run f d p n (<[p:=n]> m)
              (t ++ [EvStore p n]) Hp (lookup_insert_eq _ _ _))
    as (evs & Hrun & Hcalls & Hiff).
  exists (<[p:=d]> (<[p:=n]> m)), evs. rewrite Hrun.
  by rewrite <- app_assoc.
Qed.

Lemma handle_steal_is_unconditional_witness :
  handle_steal 100 7 (State {[100 := -1]} [])
  = Some (-1, State (<[100:=7]> {[100 := -1]}) ([] ++ [EvStore 100 7]))
  ∧ ∃ m' evs,
      (handle_steal 100 7 ;; _handle_auto_cleanup "close" (-1) 100)
        (State {[100 := -1]} [])
      = Some (tt, State m' ([] ++ [EvStore 100 7] ++ evs))
      ∧ calls evs = (if decide (7 = -1) then [] else [("close", 7)])
      ∧ (("close", 7) ∈ calls evs ↔ 7 ≠ -1).
Proof.
  apply (handle_steal_is_unconditional "close" (-1) 100 7 (-1) {[100 := -1]} []).
  - unfold NULL. lia.
  - reflexivity.
Defined.

(** ** Clear *)

(** C6: the claim says that once a non-empty binding has been cleared no
    second release occurs at scope exit.  On the code this fails for a
    pointer binding: [ptr_clear] on a binding that holds the pointer [7]
    stores the null pointer and calls the release function with [7], and
    the cleanup function defined by [PTR_AUTO_DEFINE] then calls the
    release function again, with the null pointer; so does a block that
    binds the pointer, clears it and is left in any way [k]. *)
Theorem ptr_clear_then_exit_calls_release_again (k : exit_kind) :
  (ptr_clear 100 "release" ;; _ptr_auto_cleanup "release" 100)
    (State {[100 := 7]} [])
  = Some (tt, State {[100 := NULL]}
                    [EvStore 100 NULL; EvCall "release" 7; EvCall "release" NULL])
  ∧ run_scope [SDecl (ptr_auto "release" 100) 7;
               SPtrClear 100 "release";
               SLeave k] (State ∅ [])
    = Some (k, State ∅ [EvStore 100 NULL; EvCall "release" 7;
                        EvCall "release" NULL]).
Proof. by destruct k; vm_compute. Qed.

(** X9: for a handle binding the clear is final.  [handle_clear] on a
    binding that holds [v], different from the nil value [n], at once
    stores [n] and calls the release function once with [v]; the binding
    then reads [n], and the cleanup function of a binding declared with the
    same nil value, run at scope exit, calls nothing more. *)
Theorem handle_clear_releases_once_now f f' n p v m t :
  p ≠ NULL → m !! p = Some v → v ≠ n →
  handle_clear p f n (State m t)
  = Some (tt, State (<[p:=n]> m) (t ++ [EvStore p n; EvCall f v]))
  ∧ calls [EvStore p n; EvCall f v] = [(f, v)]
  ∧ <[p:=n]> m !! p = Some n
  ∧ (handle_clear p f n ;; _handle_auto_cleanup f' n p) (State m t)
    = Some (tt, State (<[p:=n]> m) (t ++ [EvStore p n; EvCall f v])).
Proof.
  intros Hp Hm Hv. split_and!.
  - by apply handle_clear_owned.
  - done.
  - apply lookup_insert_eq.
  - unfold bind. rewrite (handle_clear_owned f n p v) by done.
    apply handle_cleanup_empty; [done | apply lookup_insert_eq].
Qed.

Lemma handle_clear_releases_once_now_witness :
  handle_clear 100 "close" (-1) (State {[100 := 5]} [])
  = Some (tt, State (<[100:=-1]> {[100 := 5]})
                    ([] ++ [EvStore 100 (-1); EvCall "close" 5]))
  ∧ calls [EvStore 100 (-1); EvCall "close" 5] = [("close", 5)]
  ∧ <[100:=-1]> ({[100 := 5]} : gmap Z Z) !! 100 = Some (-1)
  ∧ (handle_clear 100 "close" (-1) ;; _handle_auto_cleanup "close" (-1) 100)
      (State {[100 := 5]} [])
    = Some (tt, State (<[100:=-1]> {[100 := 5]})
                      ([] ++ [EvStore 100 (-1); EvCall "close" 5])).
Proof.
  apply (handle_clear_releases_once_now "close" "close" (-1) 100 5 {[100 := 5]} []).
  - unfold NULL. lia.
  - reflexivity.
  - lia.
Defined.

(** C7: on any allocated binding, in any store, [handle_clear] leaves the
    state as it was, with no write and no call, whenever the binding holds
    the nil value supplied, and so does [ptr_clear] whenever the binding
    holds the null pointer. *)
Theorem clear_of_empty_binding_is_noop f n p m t :
  p ≠ NULL →
  (m !! p = Some n → handle_clear p f n (State m t) = Some (tt, State m t))
  ∧ (m !! p = Some NULL → ptr_clear p f (State m t) = Some (tt, State m t)).
Proof.
  intros Hp. split; intros Hm.
  - by apply handle_clear_empty.
  - unfold ptr_clear. by apply handle_clear_empty.
Qed.

Lemma clear_of_empty_binding_is_noop_witness :
  handle_clear 104 "close" (-1) (State {[104 := -1]} [])
  = Some (tt, State {[104 := -1]} [])
  ∧ ptr_clear 100 "free" (State {[100 := NULL; 104 := 5]} [])
    = Some (tt, State {[100 := NULL; 104 := 5]} []).
Proof.
  split.
  - apply (proj1 (clear_of_empty_binding_is_noop "close" (-1) 104
                    {[104 := -1]} [] ltac:(unfold NULL; lia))).
    reflexivity.
  - apply (proj2 (clear_of_empty_binding_is_noop "free" 0 100
                    {[100 := NULL; 104 := 5]} [] ltac:(unfold NULL; lia))).
    reflexivity.
Defined.

(** ** Several bindings in one scope *)

(** C8: however control leaves a block ([k] is any exit), once the body has
    run to that point the block's exit completes, with the same [k], after
    the cleanup function of every variable in scope has run, the last
    declared first.  The calls made are those of the cleanup functions in
    that order; the releases owed to the bindings that still own a resource
    all occur among them, in reverse order of declaration. *)
Theorem scope_exit_releases_in_reverse_order b s k live s1 :
  run_body b [] s = Some ((k, live), s1) →
  live = rev (declared b)
  ∧ ∃ s' evs,
      run_scope b s = Some (k, s')
      ∧ trace s' = trace s1 ++ evs
      ∧ calls evs = flat_map (exit_calls (mem s1)) (rev (declared b))
      ∧ omap (owned_release (mem s1)) (rev (declared b)) `sublist_of` calls evs.
Proof.
  intros Hbody.
  destruct (run_body_inv b [] s k live s1 (scope_inv_nil _) Hbody) as [Hinv ->].
  rewrite app_nil_r in *. split; [done|].
  destruct s1 as [m1 t1].
  destruct (unwind_run _ m1 t1 Hinv) as (m' & evs & Hrun & Hcalls).
  exists (State m' (t1 ++ evs)), evs. split_and!.
  - unfold run_scope, bind. rewrite Hbody. cbn [fst snd]. by rewrite Hrun.
  - done.
  - done.
  - rewrite Hcalls. apply owned_releases_sublist.
Qed.

Lemma scope_exit_releases_in_reverse_order_witness :
  [handle_auto "close" (-1) 104; ptr_auto "free" 100]
  = rev (declared [SDecl (ptr_auto "free" 100) 7;
                   SDecl (handle_auto "close" (-1) 104) 5;
                   SLeave Unwinding])
  ∧ ∃ s' evs,
      run_scope [SDecl (ptr_auto "free" 100) 7;
                 SDecl (handle_auto "close" (-1) 104) 5;
                 SLeave Unwinding] (State ∅ [])
      = Some (Unwinding, s')
      ∧ trace s' = trace (State {[100 := 7; 104 := 5]} []) ++ evs
      ∧ calls evs
        = flat_map (exit_calls (mem (State {[100 := 7; 104 := 5]} [])))
            (rev (declared [SDecl (ptr_auto "free" 100) 7;
                            SDecl (handle_auto "close" (-1) 104) 5;
                            SLeave Unwinding]))
      ∧ omap (owned_release (mem (State {[100 := 7; 104 := 5]} [])))
          (rev (declared [SDecl (ptr_auto "free" 100) 7;
                          SDecl (handle_auto "close" (-1) 104) 5;
                          SLeave Unwinding]))
        `sublist_of` calls evs.
Proof.
  apply (scope_exit_releases_in_reverse_order
           [SDecl (ptr_auto "free" 100) 7;
            SDecl (handle_auto "close" (-1) 104) 5;
            SLeave Unwinding]
           (State ∅ []) Unwinding
           [handle_auto "close" (-1) 104; ptr_auto "free" 100]
           (State {[100 := 7; 104 := 5]} [])).
  vm_compute. reflexivity.
Defined.

(** Two resources bound in one block that is left while an error
    propagates: the handle, declared last, is released first. *)
Example two_bindings_abrupt_exit :
  run_scope [SDecl (ptr_auto "free" 100) 7;
             SDecl (handle_auto "close" (-1) 104) 5;
             SLeave Unwinding] (State ∅ [])
  = Some (Unwinding,
          State ∅ [EvStore 104 (-1); EvCall "close" 5; EvCall "free" 7]).
Proof. vm_compute. reflexivity. Qed.

(** A pointer bound to a fresh block and a block left off its end: one
    call of the release function, with that pointer. *)
Example pointer_released_at_normal_exit :
  run_scope [SDecl (ptr_auto "free" 100) 7] (State ∅ [])
  = Some (FallThrough, State ∅ [EvCall "free" 7]).
Proof. vm_compute. reflexivity. Qed.

(** * Further properties of the header *)

(** ** A null address in place of a binding *)

(** X1: the three cleanup functions test the address they receive and do
    nothing on the null address; the steal and clear operations have no
    such test and dereference it. *)
Theorem null_binding_address f n s :
  _ptr_auto_cleanup f NULL s = Some (tt, s)
  ∧ _ptr_auto_generic_free NULL s = Some (tt, s)
  ∧ _handle_auto_cleanup f n NULL s = Some (tt, s)
  ∧ ptr_steal NULL s = None
  ∧ handle_steal NULL n s = None
  ∧ handle_clear NULL f n s = None
  ∧ ptr_clear NULL f s = None.
Proof.
  unfold _ptr_auto_cleanup, _ptr_auto_generic_free, _handle_auto_cleanup,
    ptr_clear, ptr_steal, handle_steal, handle_clear, bind, load.
  cbv zeta. destruct (decide (NULL ≠ NULL)); [done|].
  by destruct (decide (NULL = NULL)).
Qed.

(** ** What the header itself writes and calls *)

(** Split a membership in a list given by its elements into the cases. *)
Ltac elem_cases H :=
  repeat match type of H with
         | _ ∈ _ :: _ => apply elem_of_cons in H as [H|H]
         | _ ∈ [] => by apply elem_of_nil in H
         end.

Lemma own_effects_intro {A} p n f t (x : A) m' evs :
  evs = [] ∨ evs = [EvStore p n]
  ∨ (∃ w, evs = [EvCall f w]) ∨ (∃ w, evs = [EvStore p n; EvCall f w]) →
  own_effects p n f t (Some (x, State m' (t ++ evs))).
Proof.
  intros Hshape. exists x, (State m' (t ++ evs)), evs.
  split_and!; [done..| | |].
  - intros q w Hin.
    destruct Hshape as [->|[->|[[u ->]|[u ->]]]]; elem_cases Hin;
      by inversion Hin.
  - intros g w Hin.
    destruct Hshape as [->|[->|[[u ->]|[u ->]]]]; elem_cases Hin;
      by inversion Hin.
  - destruct Hshape as [->|[->|[[u ->]|[u ->]]]]; cbn; lia.
Qed.

Lemma own_effects_silent {A} p n f m t (x : A) :
  own_effects p n f t (Some (x, State m t)).
Proof. rewrite <- (app_nil_r t) at 2. apply own_effects_intro. by left. Qed.

(** X2: on an allocated binding each operation of the header returns once
    the release function has.  The only writes of the header's own code go
    to the binding and store its nil value (the null pointer for
    [ptr_steal] and [ptr_clear]; the pointer cleanups write nothing), and
    it calls no function but the release function it was given (the free
    function for the generic cleanup), at most once. *)
Theorem operations_write_only_their_binding f n p v m t :
  p ≠ NULL → m !! p = Some v →
  own_effects p n f t (_ptr_auto_cleanup f p (State m t))
  ∧ own_effects p n AUTOCLEANUP_FREE_FUNC t (_ptr_auto_generic_free p (State m t))
  ∧ own_effects p n f t (_handle_auto_cleanup f n p (State m t))
  ∧ own_effects p NULL f t (ptr_steal p (State m t))
  ∧ own_effects p n f t (handle_steal p n (State m t))
  ∧ own_effects p n f t (handle_clear p f n (State m t))
  ∧ own_effects p NULL f t (ptr_clear p f (State m t)).
Proof.
  intros Hp Hm.
  assert (Hclear : ∀ k, own_effects p k f t (handle_clear p f k (State m t))).
  { intros k. destruct (decide (v = k)) as [->|Hv].
    - rewrite handle_clear_empty by done. apply own_effects_silent.
    - rewrite (handle_clear_owned f k p v) by done.
      apply own_effects_intro. do 3 right. by exists v. }
  split_and!.
  - rewrite (ptr_cleanup_run f p v) by done.
    apply own_effects_intro. do 2 right. left. by exists v.
  - rewrite (generic_free_run p v) by done.
    apply own_effects_intro. do 2 right. left. by exists v.
  - destruct (decide (v = n)) as [->|Hv].
    + rewrite handle_cleanup_empty by done. apply own_effects_silent.
    + rewrite (handle_cleanup_owned f n p v) by done.
      apply own_effects_intro. do 3 right. by exists v.
  - rewrite (ptr_steal_run p v) by done.
    apply own_effects_intro. right. by left.
  - rewrite (handle_steal_run p n v) by done.
    apply own_effects_intro. right. by left.
  - apply Hclear.
  - apply Hclear.
Qed.

Lemma operations_write_only_their_binding_witness :
  own_effects 104 (-1) "close" []
    (_ptr_auto_cleanup "close" 104 (State {[100 := 7; 104 := 5]} []))
  ∧ own_effects 104 (-1) AUTOCLEANUP_FREE_FUNC []
      (_ptr_auto_generic_free 104 (State {[100 := 7; 104 := 5]} []))
  ∧ own_effects 104 (-1) "close" []
      (_handle_auto_cleanup "close" (-1) 104 (State {[100 := 7; 104 := 5]} []))
  ∧ own_effects 104 NULL "close" []
      (ptr_steal 104 (State {[100 := 7; 104 := 5]} []))
  ∧ own_effects 104 (-1) "close" []
      (handle_steal 104 (-1) (State {[100 := 7; 104 := 5]} []))
  ∧ own_effects 104 (-1) "close" []
      (handle_clear 104 "close" (-1) (State {[100 := 7; 104 := 5]} []))
  ∧ own_effects 104 NULL "close" []
      (ptr_clear 104 "close" (State {[100 := 7; 104 := 5]} [])).
Proof.
  apply (operations_write_only_their_binding "close" (-1) 104 5
           {[100 := 7; 104 := 5]} []).
  - unfold NULL. lia.
  - reflexivity.
Defined.

(** ** Running an operation again *)

(** X3: the cleanup function defined by [PTR_AUTO_DEFINE] never writes to
    the binding, which keeps the pointer it held; run a second time on the
    same binding it calls the release function a second time with the same
    pointer. *)
Theorem ptr_cleanup_keeps_the_pointer f p v m t :
  p ≠ NULL → m !! p = Some v →
  _ptr_auto_cleanup f p (State m t) = Some (tt, State m (t ++ [EvCall f v]))
  ∧ (_ptr_auto_cleanup f p ;; _ptr_auto_cleanup f p) (State m t)
    = Some (tt, State m (t ++ [EvCall f v; EvCall f v])).
Proof.
  intros Hp Hm. split; [by apply ptr_cleanup_run|].
  unfold bind. rewrite !(ptr_cleanup_run f p v) by done.
  by rewrite <- app_assoc.
Qed.

Lemma ptr_cleanup_keeps_the_pointer_witness :
  _ptr_auto_cleanup "free" 100 (State {[100 := 7]} [])
  = Some (tt, State {[100 := 7]} ([] ++ [EvCall "free" 7]))
  ∧ (_ptr_auto_cleanup "free" 100 ;; _ptr_auto_cleanup "free" 100)
      (State {[100 := 7]} [])
    = Some (tt, State {[100 := 7]} ([] ++ [EvCall "free" 7; EvCall "free" 7])).
Proof.
  apply (ptr_cleanup_keeps_the_pointer "free" 100 7 {[100 := 7]} []).
  - unfold NULL. lia.
  - reflexivity.
Defined.

(** X4: clearing twice with the same nil value is clearing once, whatever
    the binding held and whichever release functions are named: the second
    [handle_clear], or [ptr_clear], finds the binding empty. *)
Theorem clear_twice_is_clear_once f f' n p v m t :
  p ≠ NULL → m !! p = Some v →
  (∃ s1, handle_clear p f n (State m t) = Some (tt, s1)
         ∧ mem s1 !! p = Some n
         ∧ (handle_clear p f n ;; handle_clear p f' n) (State m t)
           = Some (tt, s1))
  ∧ (∃ s1, ptr_clear p f (State m t) = Some (tt, s1)
           ∧ mem s1 !! p = Some NULL
           ∧ (ptr_clear p f ;; ptr_clear p f') (State m t) = Some (tt, s1)).
Proof.
  intros Hp Hm.
  assert (H : ∀ k, ∃ s1, handle_clear p f k (State m t) = Some (tt, s1)
                         ∧ mem s1 !! p = Some k
                         ∧ (handle_clear p f k ;; handle_clear p f' k) (State m t)
                           = Some (tt, s1)).
  { intros k. unfold bind. destruct (decide (v = k)) as [->|Hv].
    - exists (State m t). rewrite (handle_clear_empty f k p) by done.
      split_and!; [done..|]. by apply handle_clear_empty.
    - exists (State (<[p:=k]> m) (t ++ [EvStore p k; EvCall f v])).
      rewrite (handle_clear_owned f k p v) by done. cbn [mem].
      split_and!; [done | apply lookup_insert_eq |].
      apply handle_clear_empty; [done | apply lookup_insert_eq]. }
  split; [apply H | apply (H NULL)].
Qed.

Lemma clear_twice_is_clear_once_witness :
  (∃ s1, handle_clear 100 "close" (-1) (State {[100 := 5]} []) = Some (tt, s1)
         ∧ mem s1 !! 100 = Some (-1)
         ∧ (handle_clear 100 "close" (-1) ;; handle_clear 100 "shut" (-1))
             (State {[100 := 5]} [])
           = Some (tt, s1))
  ∧ (∃ s1, ptr_clear 100 "close" (State {[100 := 5]} []) = Some (tt, s1)
           ∧ mem s1 !! 100 = Some NULL
           ∧ (ptr_clear 100 "close" ;; ptr_clear 100 "shut")
               (State {[100 := 5]} [])
             = Some (tt, s1)).
Proof.
  apply (clear_twice_is_clear_once "close" "shut" (-1) 100 5 {[100 := 5]} []).
  - unfold NULL. lia.
  - reflexivity.
Defined.

(** X5: after a steal the binding is empty for whatever follows with the
    same nil value: a second steal returns the nil value (the null pointer
    for [ptr_steal]), and a clear calls no release function. *)
Theorem binding_is_empty_after_steal f n p v m t :
  p ≠ NULL → m !! p = Some v →
  (let* a := handle_steal p n in
   let* b := handle_steal p n in
   ret (a, b)) (State m t)
  = Some ((v, n), State (<[p:=n]> m) (t ++ [EvStore p n; EvStore p n]))
  ∧ (let* a := ptr_steal p in
     let* b := ptr_steal p in
     ret (a, b)) (State m t)
    = Some ((v, NULL), State (<[p:=NULL]> m) (t ++ [EvStore p NULL; EvStore p NULL]))
  ∧ (handle_steal p n ;; handle_clear p f n) (State m t)
    = Some (tt, State (<[p:=n]> m) (t ++ [EvStore p n]))
  ∧ (ptr_steal p ;; ptr_clear p f) (State m t)
    = Some (tt, State (<[p:=NULL]> m) (t ++ [EvStore p NULL])).
Proof.
  intros Hp Hm. unfold bind, ptr_clear. split_and!.
  - rewrite (handle_steal_run p n v) by done.
    rewrite (handle_steal_run p n n) by (done || apply lookup_insert_eq).
    by rewrite insert_insert_eq, <- app_assoc.
  - rewrite (ptr_steal_run p v) by done.
    rewrite (ptr_steal_run p NULL) by (done || apply lookup_insert_eq).
    by rewrite insert_insert_eq, <- app_assoc.
  - rewrite (handle_steal_run p n v) by done.
    apply handle_clear_empty; [done | apply lookup_insert_eq].
  - rewrite (ptr_steal_run p v) by done.
    apply handle_clear_empty; [done | apply lookup_insert_eq].
Qed.

Lemma binding_is_empty_after_steal_witness :
  (let* a := handle_steal 100 (-1) in
   let* b := handle_steal 100 (-1) in
   ret (a, b)) (State {[100 := 5]} [])
  = Some ((5, -1), State (<[100:=-1]> {[100 := 5]})
                         ([] ++ [EvStore 100 (-1); EvStore 100 (-1)]))
  ∧ (let* a := ptr_steal 100 in
     let* b := ptr_steal 100 in
     ret (a, b)) (State {[100 := 5]} [])
    = Some ((5, NULL), State (<[100:=NULL]> {[100 := 5]})
                             ([] ++ [EvStore 100 NULL; EvStore 100 NULL]))
  ∧ (handle_steal 100 (-1) ;; handle_clear 100 "close" (-1)) (State {[100 := 5]} [])
    = Some (tt, State (<[100:=-1]> {[100 := 5]}) ([] ++ [EvStore 100 (-1)]))
  ∧ (ptr_steal 100 ;; ptr_clear 100 "close") (State {[100 := 5]} [])
    = Some (tt, State (<[100:=NULL]> {[100 := 5]}) ([] ++ [EvStore 100 NULL])).
Proof.
  apply (binding_is_empty_after_steal "close" (-1) 100 5 {[100 := 5]} []).
  - unfold NULL. lia.
  - reflexivity.
Defined.

(** ** Nil values that do not match *)

(** X6: [handle_clear] compares the held value with the nil value it is
    given and with nothing else.  Given a nil value [n] other than the
    value [d] the binding was declared with, it treats an empty binding as
    owning: it calls the release function with [d] and stores [n], and the
    cleanup function at scope exit then releases [n]. *)
Theorem handle_clear_with_foreign_nil f f' d n p m t :
  p ≠ NULL → m !! p = Some d → n ≠ d →
  handle_clear p f n (State m t)
  = Some (tt, State (<[p:=n]> m) (t ++ [EvStore p n; EvCall f d]))
  ∧ (handle_clear p f n ;; _handle_auto_cleanup f' d p) (State m t)
    = Some (tt, State m (t ++ [EvStore p n; EvCall f d; EvStore p d; EvCall f' n])).
Proof.
  intros Hp Hm Hn.
  assert (Hclear := handle_clear_owned f n p d m t Hp Hm (not_eq_sym Hn)).
  split; [done|]. unfold bind. rewrite Hclear.
  rewrite (handle_cleanup_owned f' d p n) by (done || apply lookup_insert_eq).
  by rewrite insert_insert_eq, insert_id, <- app_assoc.
Qed.

Lemma handle_clear_with_foreign_nil_witness :
  handle_clear 100 "close" 0 (State {[100 := -1]} [])
  = Some (tt, State (<[100:=0]> {[100 := -1]})
                    ([] ++ [EvStore 100 0; EvCall "close" (-1)]))
  ∧ (handle_clear 100 "close" 0 ;; _handle_auto_cleanup "close" (-1) 100)
      (State {[100 := -1]} [])
    = Some (tt, State {[100 := -1]}
                      ([] ++ [EvStore 100 0; EvCall "close" (-1);
                              EvStore 100 (-1); EvCall "close" 0])).
Proof.
  apply (handle_clear_with_foreign_nil "close" "close" (-1) 0 100 {[100 := -1]} []).
  - unfold NULL. lia.
  - reflexivity.
  - lia.
Defined.

(** ** Moving a handle from one binding to another *)

(** X7: when the value stolen from one handle binding is stored in another,
    empty, binding of the same kind, the two cleanup functions together
    release it exactly once (not at all if it was the nil value), and both
    bindings end empty. *)
Theorem moved_handle_is_released_once f n src dst v m t :
  src ≠ NULL → dst ≠ NULL → src ≠ dst →
  m !! src = Some v → m !! dst = Some n →
  ∃ s',
    (let* h := handle_steal src n in
     store dst h ;;
     _handle_auto_cleanup f n dst ;;
     _handle_auto_cleanup f n src) (State m t)
    = Some (tt, s')
    ∧ calls (trace s') = calls t ++ (if decide (v = n) then [] else [(f, v)])
    ∧ mem s' !! src = Some n
    ∧ mem s' !! dst = Some n.
Proof.
  intros Hs Hd Hne Hms Hmd. unfold bind.
  rewrite (handle_steal_run src n v) by done.
  rewrite (store_ok dst v n) by (done || by rewrite lookup_insert_ne).
  set (m2 := <[dst:=v]> (<[src:=n]> m)).
  set (t2 := (t ++ [EvStore src n]) ++ [EvStore dst v]).
  assert (Hdst : m2 !! dst = Some v) by apply lookup_insert_eq.
  assert (Hsrc : m2 !! src = Some n).
  { unfold m2. rewrite lookup_insert_ne by done. apply lookup_insert_eq. }
  assert (Ht2 : calls t2 = calls t).
  { unfold t2. rewrite !calls_app. cbn. by rewrite !app_nil_r. }
  destruct (decide (v = n)) as [->|Hv].
  - rewrite (handle_cleanup_empty f n dst) by done.
    rewrite (handle_cleanup_empty f n src) by done.
    eexists. split; [done|]. cbn [mem trace]. by rewrite Ht2, app_nil_r.
  - rewrite (handle_cleanup_owned f n dst v) by done.
    rewrite (handle_cleanup_empty f n src)
      by (done || by rewrite lookup_insert_ne).
    eexists. split; [done|]. cbn [mem trace]. split_and!.
    + rewrite calls_app. by rewrite Ht2.
    + by rewrite lookup_insert_ne.
    + apply lookup_insert_eq.
Qed.

Lemma moved_handle_is_released_once_witness :
  ∃ s',
    (let* h := handle_steal 100 (-1) in
     store 104 h ;;
     _handle_auto_cleanup "close" (-1) 104 ;;
     _handle_auto_cleanup "close" (-1) 100) (State {[100 := 5; 104 := -1]} [])
    = Some (tt, s')
    ∧ calls (trace s') = calls [] ++ (if decide (5 = -1) then [] else [("close", 5)])
    ∧ mem s' !! 100 = Some (-1)
    ∧ mem s' !! 104 = Some (-1).
Proof.
  apply (moved_handle_is_released_once "close" (-1) 100 104 5
           {[100 := 5; 104 := -1]} []).
  - unfold NULL. lia.
  - unfold NULL. lia.
  - lia.
  - reflexivity.
  - reflexivity.
Defined.

(** ** Scopes without empty pointer bindings *)

Lemma exit_calls_owned_release m d :
  ¬ null_pointer_binding m d →
  exit_calls m d = option_list (owned_release m d).
Proof.
  unfold exit_calls, owned_release, null_pointer_binding.
  destruct d as [f a|f n a]; cbn [var_addr empty_value release_func];
    destruct (m !! a) as [v|]; try done.
  - intros Hnn. destruct (decide (v = NULL)) as [->|]; done.
  - intros _. by destruct (decide (v = n)).
Qed.

Lemma flat_map_exit_calls_owned m live :
  (∀ d, d ∈ live → ¬ null_pointer_binding m d) →
  flat_map (exit_calls m) live = omap (owned_release m) live.
Proof.
  induction live as [|d live IH]; intros H; cbn [flat_map omap list_omap]; [done|].
  rewrite exit_calls_owned_release by (apply H; by left).
  rewrite IH by (intros d' Hd'; apply H; by right).
  by destruct (owned_release m d).
Qed.

(** X8: when no pointer binding in scope holds the null pointer as control
    leaves a block (in particular when all its bindings are handles), the
    calls made while the block is left are exactly the releases owed to
    the bindings that still own a resource, one each, in reverse order of
    declaration. *)
Theorem scope_exit_releases_exactly_the_owned b s k live s1 :
  run_body b [] s = Some ((k, live), s1) →
  (∀ d, d ∈ declared b → ¬ null_pointer_binding (mem s1) d) →
  ∃ s' evs,
    run_scope b s = Some (k, s')
    ∧ trace s' = trace s1 ++ evs
    ∧ calls evs = omap (owned_release (mem s1)) (rev (declared b)).
Proof.
  intros Hbody Hnn.
  destruct (run_body_inv b [] s k live s1 (scope_inv_nil _) Hbody) as [Hinv ->].
  rewrite app_nil_r in *. destruct s1 as [m1 t1].
  destruct (unwind_run _ m1 t1 Hinv) as (m' & evs & Hrun & Hcalls).
  exists (State m' (t1 ++ evs)), evs. split_and!.
  - unfold run_scope, bind. rewrite Hbody. cbn [fst snd]. by rewrite Hrun.
  - done.
  - rewrite Hcalls. apply flat_map_exit_calls_owned.
    intros d Hd. apply Hnn.
    by apply list_elem_of_In, in_rev, list_elem_of_In.
Qed.

Lemma scope_exit_releases_exactly_the_owned_witness :
  ∃ s' evs,
    run_scope [SDecl (ptr_auto "free" 100) 7;
               SDecl (handle_auto "close" (-1) 104) 5;
               SDecl (handle_auto "close" (-1) 108) 6;
               SHandleSteal 104 (-1);
               SLeave Jump] (State ∅ [])
    = Some (Jump, s')
    ∧ trace s' = trace (State {[100 := 7; 104 := -1; 108 := 6]} [EvStore 104 (-1)])
                 ++ evs
    ∧ calls evs
      = omap (owned_release (mem (State {[100 := 7; 104 := -1; 108 := 6]}
                                        [EvStore 104 (-1)])))
          (rev (declared [SDecl (ptr_auto "free" 100) 7;
                          SDecl (handle_auto "close" (-1) 104) 5;
                          SDecl (handle_auto "close" (-1) 108) 6;
                          SHandleSteal 104 (-1);
                          SLeave Jump])).
Proof.
  apply (scope_exit_releases_exactly_the_owned
           [SDecl (ptr_auto "free" 100) 7;
            SDecl (handle_auto "close" (-1) 104) 5;
            SDecl (handle_auto "close" (-1) 108) 6;
            SHandleSteal 104 (-1);
            SLeave Jump]
           (State ∅ []) Jump
           [handle_auto "close" (-1) 108; handle_auto "close" (-1) 104;
            ptr_auto "free" 100]
           (State {[100 := 7; 104 := -1; 108 := 6]} [EvStore 104 (-1)])).
  - vm_compute. reflexivity.
  - intros d Hd. cbn [declared] in Hd.
    apply elem_of_cons in Hd as [->|Hd]; [intros H; vm_compute in H; discriminate H|].
    apply elem_of_cons in Hd as [->|Hd]; [intros H; exact H|].
    apply elem_of_cons in Hd as [->|Hd]; [intros H; exact H|].
    by apply elem_of_nil in Hd.
Defined.

End AutoCleanup.
